(** * simple: a strict-contract wrapper around Go's io.Reader

    Shallow embedding of package [simple] (reader.go and its example file):
    the [Reader] wrapper with its one-slot error store, the package-level
    [Read] helper that reshapes the caller's buffer, and the [basic] source
    used by the examples.

    Conventions of the embedding
    - a Go [int] is a [Z];
    - a Go [error] is [option error_value], [None] being [nil];
    - a [[]byte] is a [slice]: either the nil slice, or the elements visible
      through the slice ([elems]) followed by the rest of the backing array
      up to the capacity ([spare]);
    - a method with a pointer receiver takes the receiver's state and returns
      the new state next to its Go results;
    - a run-time panic is the [Panic] outcome of the [go] type. *)

From Stdlib Require Import ZArith String List Bool Lia.
From Stdlib Require Import Strings.Byte.
Import ListNotations.
Open Scope Z_scope.

Set Implicit Arguments.

(** ** Go values *)

(** Outcome of code that may panic. *)
Inductive go (A : Type) : Type :=
| Return (a : A)
| Panic (msg : string).
Arguments Return {A} a.
Arguments Panic {A} msg.

Definition go_bind {A B : Type} (m : go A) (k : A -> go B) : go B :=
  match m with
  | Return a => k a
  | Panic msg => Panic msg
  end.

Notation "x <- m ;; k" := (go_bind m (fun x => k))
  (at level 61, m at next level, right associativity).

(** The error values of package io that the sources use, and any other one. *)
Inductive error_value : Type :=
| io_EOF
| io_ErrUnexpectedEOF
| errors_New (text : string).

Definition error : Type := option error_value.

Definition is_nil_error (e : error) : bool :=
  match e with
  | None => true
  | Some _ => false
  end.

(** A byte slice. *)
Inductive slice : Type :=
| nil_slice
| Slice (elems spare : list byte).

Definition elems (p : slice) : list byte :=
  match p with
  | nil_slice => []
  | Slice e _ => e
  end.

Definition spare (p : slice) : list byte :=
  match p with
  | nil_slice => []
  | Slice _ s => s
  end.

Definition is_nil_slice (p : slice) : bool :=
  match p with
  | nil_slice => true
  | Slice _ _ => false
  end.

Definition len (p : slice) : Z := Z.of_nat (length (elems p)).

Definition cap (p : slice) : Z :=
  Z.of_nat (length (elems p) + length (spare p)).

(** [make([]byte, n)]. *)
Definition make (n : nat) : slice := Slice (repeat x00 n) [].

(** The slice expression [p[:n]]: it panics outside [0 <= n <= cap(p)], and
    a nil slice stays nil. *)
Definition slice_to (p : slice) (n : Z) : go slice :=
  if (n <? 0) || (cap p <? n) then Panic "slice bounds out of range"
  else match p with
       | nil_slice => Return nil_slice
       | Slice e s =>
           Return (Slice (firstn (Z.to_nat n) (e ++ s))
                         (skipn (Z.to_nat n) (e ++ s)))
       end.

(** The builtin [copy(dst, src)]: the new elements of [dst] and the number of
    bytes copied. *)
Definition copy (dst src : list byte) : list byte * Z :=
  (firstn (length dst) src ++ skipn (length src) dst,
   Z.of_nat (Nat.min (length dst) (length src))).

(** ** The io.Reader interface *)

(** [io_Read s p] is the method call [s.Read(p)] seen from the callee: the
    receiver's new state, the bytes it leaves in [p[0:len(p)]], and the two
    Go results.  Nothing is assumed of [n] or of the error. *)
Class io_Reader (S : Type) : Type :=
  io_Read : S -> slice -> S * list byte * Z * error.

(** What a callee's writes do to the caller's slice: the elements change, the
    slice header (nil-ness, length, capacity) cannot. *)
Definition store (p : slice) (w : list byte) : slice :=
  match p with
  | nil_slice => nil_slice
  | Slice e s => Slice (fst (copy e w)) s
  end.

(** The call [s.Read(p)] seen from the caller. *)
Definition call_Read {S : Type} `{io_Reader S} (s : S) (p : slice)
  : S * slice * Z * error :=
  let '(s', w, n, e) := io_Read s p in (s', store p w, n, e).

(** ** reader.go *)

Record Reader (S : Type) : Type := mkReader { err : error; r : S }.
Arguments mkReader {S} err r.

(** [NewReader]; the argument is the interface value, [None] when nil. *)
Definition NewReader {S : Type} (src : option S) : go (Reader S) :=
  match src with
  | None => Panic "cannot wrap nil io.Reader"
  | Some s => Return {| err := None; r := s |}
  end.

(** Method [Err] of [Reader]. *)
Definition Reader_Err {S : Type} (rd : Reader S) : Reader S * error :=
  ({| err := None; r := r rd |}, err rd).

(** Method [Read] of [Reader]. *)
Definition Reader_Read {S : Type} `{io_Reader S} (rd : Reader S) (p : slice)
  : Reader S * slice * Z * error :=
  if negb (is_nil_error (err rd)) then
    let '(rd', e) := Reader_Err rd in (rd', p, 0, e)
  else
    let '(s', p', n, e) := call_Read (r rd) p in
    if negb (n =? 0) && negb (is_nil_error e) then
      ({| err := e; r := s' |}, p', n, None)
    else
      ({| err := err rd; r := s' |}, p', n, e).

(** A [Reader] is an io.Reader itself. *)
#[export] Instance Reader_io_Reader {S : Type} `{io_Reader S}
  : io_Reader (Reader S) :=
  fun rd p => let '(rd', p', n, e) := Reader_Read rd p in (rd', elems p', n, e).

(** The package-level helper [Read]. *)
Definition Read {S : Type} `{io_Reader S} (src : S) (p : slice)
  : go (S * slice * error) :=
  p1 <- slice_to p (cap p) ;;
  let '(src', p2, n, e) := call_Read src p1 in
  p3 <- (if negb (is_nil_slice p2) then slice_to p2 n else Return p2) ;;
  Return (src', p3, e).

(** ** The example file: the [basic] source *)

(** [type basic []byte]; only its visible elements matter to [Read]. *)
Definition basic : Type := list byte.

Definition NewBasic (s : string) : basic := list_byte_of_string s.

(** Method [Read] of [basic]; the receiver is a pointer, [None] when nil.
    The stored bytes and the caller's buffer are separate values here: the
    buffer [p] is taken not to overlap the backing array of the receiver. *)
Definition basic_Read (b : option basic) (p : slice)
  : option basic * list byte * Z * error :=
  match b with
  | None => (None, elems p, 0, Some io_ErrUnexpectedEOF)
  | Some bs =>
      if Z.of_nat (length bs) =? 0 then (b, elems p, 0, Some io_EOF)
      else if len p =? 0 then (b, elems p, 0, None)
      else
        let '(w, n) := copy (elems p) bs in
        if len p <=? Z.of_nat (length bs)
        then (Some (skipn (Z.to_nat (len p)) bs), w, n, None)
        else (Some [], w, n, Some io_EOF)
  end.

#[export] Instance basic_io_Reader : io_Reader (option basic) := basic_Read.

(** ** Sequences of calls on a wrapper *)

Inductive call : Type :=
| CallRead (p : slice)
| CallErr.

Inductive reply : Type :=
| ReadReply (p : slice) (n : Z) (e : error)
| ErrReply (e : error).

Definition step {S : Type} `{io_Reader S} (rd : Reader S) (c : call)
  : Reader S * reply :=
  match c with
  | CallRead p =>
      let '(rd', p', n, e) := Reader_Read rd p in (rd', ReadReply p' n e)
  | CallErr =>
      let '(rd', e) := Reader_Err rd in (rd', ErrReply e)
  end.

Fixpoint run {S : Type} `{io_Reader S} (rd : Reader S) (cs : list call)
  : Reader S * list reply :=
  match cs with
  | [] => (rd, [])
  | c :: cs' =>
      let '(rd1, x) := step rd c in
      let '(rd2, xs) := run rd1 cs' in
      (rd2, x :: xs)
  end.

(** The bytes a read hands over, [p[:n]], for a count within the buffer
    ([0 <= n <= len(p)]); [slice_to] is the slice expression in general. *)
Definition bytes_read (p : slice) (n : Z) : list byte :=
  firstn (Z.to_nat n) (elems p).

(** The non-empty byte results of the wrapper's reads, concatenated. *)
Fixpoint reply_bytes (xs : list reply) : list byte :=
  match xs with
  | [] => []
  | ReadReply p n _ :: xs' =>
      if 0 <? n then bytes_read p n ++ reply_bytes xs' else reply_bytes xs'
  | ErrReply _ :: xs' => reply_bytes xs'
  end.

(** The non-nil errors handed to the caller, in call order. *)
Fixpoint reply_errors (xs : list reply) : list error_value :=
  match xs with
  | [] => []
  | ReadReply _ _ (Some x) :: xs' => x :: reply_errors xs'
  | ErrReply (Some x) :: xs' => x :: reply_errors xs'
  | _ :: xs' => reply_errors xs'
  end.

Definition pending {S : Type} (rd : Reader S) : list error_value :=
  match err rd with
  | Some x => [x]
  | None => []
  end.

(** The strict contract on one reply: data and an error never come together. *)
Definition strict (x : reply) : Prop :=
  match x with
  | ReadReply _ n e => 0 < n -> e = None
  | ErrReply _ => True
  end.

(** ** A source that records the reads made on it *)

Record Recorder (S : Type) : Type :=
  mkRecorder { inner : S; log : list (slice * Z * error) }.
Arguments mkRecorder {S} inner log.

(** Every [Read] is passed to [inner] unchanged and its outcome (the buffer
    as left by the call, [n], the error) is appended to [log]. *)
#[export] Instance Recorder_io_Reader {S : Type} `{io_Reader S}
  : io_Reader (Recorder S) :=
  fun rc p =>
    let '(s', w, n, e) := io_Read (inner rc) p in
    ({| inner := s'; log := log rc ++ [(store p w, n, e)] |}, w, n, e).

Definition record {S : Type} (s : S) : Recorder S :=
  {| inner := s; log := [] |}.

Definition unrecord {S : Type} (rd : Reader (Recorder S)) : Reader S :=
  {| err := err rd; r := inner (r rd) |}.

Fixpoint log_bytes (l : list (slice * Z * error)) : list byte :=
  match l with
  | [] => []
  | (p, n, _) :: l' => bytes_read p n ++ log_bytes l'
  end.

Fixpoint log_errors (l : list (slice * Z * error)) : list error_value :=
  match l with
  | [] => []
  | (_, _, Some x) :: l' => x :: log_errors l'
  | (_, _, None) :: l' => log_errors l'
  end.

(** ** The read loop of ExampleReader *)

(** [k] iterations of [n, err := r.Read(p)] on one buffer [p], without the
    loop's exit test: what each call returned and the bytes [p[:n]]. *)
Fixpoint read_n {S : Type} `{io_Reader S} (k : nat) (rd : Reader S)
  (p : slice) : list (Z * list byte * error) :=
  match k with
  | O => []
  | Datatypes.S k' =>
      let '(rd', p', n, e) := Reader_Read rd p in
      (n, bytes_read p' n, e) :: read_n k' rd' p'
  end.

(** The loop itself: it prints [p[:n]] until a call returns an error. *)
Fixpoint ExampleReader_loop {S : Type} `{io_Reader S} (fuel : nat)
  (rd : Reader S) (p : slice) : option (list string) :=
  match fuel with
  | O => None
  | Datatypes.S fuel' =>
      let '(rd', p', n, e) := Reader_Read rd p in
      if negb (is_nil_error e) then Some []
      else
        match ExampleReader_loop fuel' rd' p' with
        | Some out => Some (string_of_list_byte (bytes_read p' n) :: out)
        | None => None
        end
  end.

(** ** The parts of what a Read call returns *)

Definition state_of {S : Type} (x : S * slice * Z * error) : S :=
  fst (fst (fst x)).

Definition buffer_of {S : Type} (x : S * slice * Z * error) : slice :=
  snd (fst (fst x)).

Definition count_of {S : Type} (x : S * slice * Z * error) : Z :=
  snd (fst x).

Definition error_of {S : Type} (x : S * slice * Z * error) : error :=
  snd x.

(** ** Reads made on a source directly *)

Fixpoint source_run {S : Type} `{io_Reader S} (s : S) (ps : list slice)
  : S * list (slice * Z * error) :=
  match ps with
  | [] => (s, [])
  | p :: ps' =>
      let '(s1, p', n, e) := call_Read s p in
      let '(s2, xs) := source_run s1 ps' in
      (s2, (p', n, e) :: xs)
  end.

(** The number of [Read] calls in a sequence of calls. *)
Fixpoint count_reads (cs : list call) : nat :=
  match cs with
  | [] => O
  | CallRead _ :: cs' => Datatypes.S (count_reads cs')
  | CallErr :: cs' => count_reads cs'
  end.

(** ** Reads through the wrapper against reads on the bare source *)

(** The buffers of the [Read] calls that find the slot empty: the ones the
    wrapper passes on to its source. *)
Fixpoint delegated {S : Type} `{io_Reader S} (rd : Reader S) (cs : list call)
  : list slice :=
  match cs with
  | [] => []
  | c :: cs' =>
      match c with
      | CallRead p => if is_nil_error (err rd) then [p] else []
      | CallErr => []
      end ++ delegated (fst (step rd c)) cs'
  end.

(** The calls of a caller that wants the source read with the buffers [ps]
    and goes through the wrapper: one [Read] per buffer and, after each read
    in which the source returned data together with an error, one more
    [Read] to collect that error. *)
Fixpoint reads_through {S : Type} `{io_Reader S} (s : S) (ps : list slice)
  : list call :=
  match ps with
  | [] => []
  | p :: ps' =>
      let '(s', _, n, e) := call_Read s p in
      CallRead p ::
      (if negb (n =? 0) && negb (is_nil_error e) then [CallRead nil_slice]
       else [])
      ++ reads_through s' ps'
  end.

(** The non-empty results of the wrapper's reads, in call order: the buffer
    as the call left it and the count. *)
Fixpoint reply_data (xs : list reply) : list (slice * Z) :=
  match xs with
  | [] => []
  | ReadReply p n _ :: xs' =>
      if 0 <? n then (p, n) :: reply_data xs' else reply_data xs'
  | ErrReply _ :: xs' => reply_data xs'
  end.

(** The same for reads made on a source directly. *)
Fixpoint log_data (l : list (slice * Z * error)) : list (slice * Z) :=
  match l with
  | [] => []
  | (p, n, _) :: l' => if 0 <? n then (p, n) :: log_data l' else log_data l'
  end.

(** The byte results [p[:n]] one after the other; a slice expression out of
    range panics. *)
Fixpoint concat_data (l : list (slice * Z)) : go (list byte) :=
  match l with
  | [] => Return []
  | (p, n) :: l' =>
      q <- slice_to p n ;;
      rest <- concat_data l' ;;
      Return (elems q ++ rest)
  end.

(** ** The other loops of the example file *)

(** What [fmt.Printf] gets for its [%s] from the argument [p[:n]], which may
    panic. *)
Definition printed (p : slice) (n : Z) : go string :=
  q <- slice_to p n ;; Return (string_of_list_byte (elems q)).

(** The first loop of ExampleReader, on the bare source: every read without
    an error is printed, and the first read with an error ends the loop with
    "whoops, lost: " and its [p[:n]].  The result is the printed lines and
    the bytes reported lost; [None] when the fuel runs out. *)
Fixpoint ExampleReader_naive {S : Type} `{io_Reader S} (fuel : nat) (b : S)
  (p : slice) : option (go (list string * string)) :=
  match fuel with
  | O => None
  | Datatypes.S fuel' =>
      let '(b', p', n, e) := call_Read b p in
      if negb (is_nil_error e) then
        Some (lost <- printed p' n ;; Return ([], lost))
      else
        match printed p' n with
        | Panic msg => Some (Panic msg)
        | Return line =>
            match ExampleReader_naive fuel' b' p' with
            | Some (Return (out, lost)) => Some (Return (line :: out, lost))
            | other => other
            end
        end
  end.

(** The second loop of ExampleReader, on the bare source: [p[:n]] is printed
    when [n > 0], then an error ends the loop. *)
Fixpoint ExampleReader_careful {S : Type} `{io_Reader S} (fuel : nat) (b : S)
  (p : slice) : option (go (list string)) :=
  match fuel with
  | O => None
  | Datatypes.S fuel' =>
      let '(b', p', n, e) := call_Read b p in
      match (if 0 <? n then line <- printed p' n ;; Return [line]
             else Return []) with
      | Panic msg => Some (Panic msg)
      | Return now =>
          if negb (is_nil_error e) then Some (Return now)
          else
            match ExampleReader_careful fuel' b' p' with
            | Some (Return out) => Some (Return (now ++ out))
            | other => other
            end
      end
  end.

(** The outer [p] of ExampleRead after [p, err := Read(r, p)]: the inner [p]
    is a new variable, so the outer one keeps its header, over the backing
    array it shares with the result [q]. *)
Definition refresh (p q : slice) : slice :=
  match p with
  | nil_slice => nil_slice
  | Slice e _ =>
      Slice (firstn (length e) (elems q ++ spare q))
            (skipn (length e) (elems q ++ spare q))
  end.

(** The loop of ExampleRead: the result of the helper is printed until a
    call returns an error. *)
Fixpoint ExampleRead_loop {S : Type} `{io_Reader S} (fuel : nat) (src : S)
  (p : slice) : option (go (list string)) :=
  match fuel with
  | O => None
  | Datatypes.S fuel' =>
      match Read src p with
      | Panic msg => Some (Panic msg)
      | Return (src', q, e) =>
          if negb (is_nil_error e) then Some (Return [])
          else
            match ExampleRead_loop fuel' src' (refresh p q) with
            | Some (Return out) =>
                Some (Return (string_of_list_byte (elems q) :: out))
            | other => other
            end
      end
  end.

(** The bytes of printed lines, one after the other. *)
Definition line_bytes (out : list string) : list byte :=
  concat (map list_byte_of_string out).

(** ** The three ways a call to the wrapper's Read can go *)

Inductive Read_case {S : Type} `{io_Reader S} (rd : Reader S) (p : slice)
  : Reader S * slice * Z * error -> Prop :=
| Read_pending x :
    err rd = Some x ->
    Read_case rd p ({| err := None; r := r rd |}, p, 0, Some x)
| Read_deferred s' p' n x :
    err rd = None -> call_Read (r rd) p = (s', p', n, Some x) -> n <> 0 ->
    Read_case rd p ({| err := Some x; r := s' |}, p', n, None)
| Read_through s' p' n e :
    err rd = None -> call_Read (r rd) p = (s', p', n, e) ->
    n = 0 \/ e = None ->
    Read_case rd p ({| err := None; r := s' |}, p', n, e).

(** * Properties *)

(** ** Slices and copy *)

Lemma copy_length (dst src : list byte) :
  length (fst (copy dst src)) = length dst.
Proof.
  unfold copy; cbn [fst].
  rewrite length_app, length_firstn, length_skipn.
  apply Nat.min_case_strong; intro; apply Nat2Z.inj; lia.
Qed.

Lemma copy_self (dst : list byte) : fst (copy dst dst) = dst.
Proof.
  unfold copy; cbn [fst].
  rewrite firstn_all, skipn_all, app_nil_r; reflexivity.
Qed.

(** Copying over all of [dst] leaves the source's bytes. *)
Lemma copy_fits (dst src : list byte) :
  length src = length dst -> fst (copy dst src) = src.
Proof.
  intros Hlen; unfold copy; cbn [fst].
  rewrite <- Hlen, firstn_all, skipn_all2, app_nil_r by lia; reflexivity.
Qed.

Lemma store_len (p : slice) (w : list byte) : len (store p w) = len p.
Proof.
  destruct p as [|e s]; [reflexivity|].
  unfold len; cbn [store elems]; rewrite copy_length; reflexivity.
Qed.

Lemma store_cap (p : slice) (w : list byte) : cap (store p w) = cap p.
Proof.
  destruct p as [|e s]; [reflexivity|].
  unfold cap; cbn [store elems spare]; rewrite copy_length; reflexivity.
Qed.

Lemma store_is_nil (p : slice) (w : list byte) :
  is_nil_slice (store p w) = is_nil_slice p.
Proof. destruct p; reflexivity. Qed.

Lemma store_elems (p : slice) : store p (elems p) = p.
Proof.
  destruct p as [|e s]; [reflexivity|].
  cbn [store elems]; rewrite copy_self; reflexivity.
Qed.

Lemma len_le_cap (p : slice) : 0 <= len p <= cap p.
Proof. unfold len, cap; lia. Qed.

(** [p[:cap(p)]] never panics and shows the whole backing array. *)
Lemma slice_to_cap (p : slice) :
  exists p1, slice_to p (cap p) = Return p1 /\ len p1 = cap p /\
             cap p1 = cap p /\ is_nil_slice p1 = is_nil_slice p.
Proof.
  unfold slice_to.
  replace ((cap p <? 0) || (cap p <? cap p)) with false
    by (symmetry; apply orb_false_iff; unfold cap; split; apply Z.ltb_ge; lia).
  destruct p as [|e s].
  - exists nil_slice; repeat split.
  - eexists; split; [reflexivity|].
    unfold len, cap; cbn [elems spare is_nil_slice].
    rewrite Nat2Z.id, <- length_app, firstn_all, skipn_all.
    cbn [length]; repeat split; f_equal; lia.
Qed.

(** Inside its bounds [p[:n]] has length [n] and keeps the backing array. *)
Lemma slice_to_in_bounds (p : slice) (n : Z) :
  0 <= n <= cap p ->
  exists q, slice_to p n = Return q /\ len q = n /\ cap q = cap p /\
            elems q ++ spare q = elems p ++ spare p /\
            is_nil_slice q = is_nil_slice p.
Proof.
  intros Hn; unfold slice_to.
  replace ((n <? 0) || (cap p <? n)) with false
    by (symmetry; apply orb_false_iff; split; apply Z.ltb_ge; lia).
  destruct p as [|e s].
  - exists nil_slice; repeat split. unfold cap in Hn; cbn in Hn |- *; lia.
  - eexists; split; [reflexivity|].
    unfold len, cap in *; cbn [elems spare is_nil_slice length] in *.
    rewrite <- length_app in Hn.
    rewrite firstn_skipn, length_firstn, length_skipn.
    repeat split; try lia.
    rewrite <- length_app; lia.
Qed.

Lemma slice_to_out_of_bounds (p : slice) (n : Z) :
  n < 0 \/ cap p < n -> slice_to p n = Panic "slice bounds out of range".
Proof.
  intros Hn; unfold slice_to.
  replace ((n <? 0) || (cap p <? n)) with true; [reflexivity|].
  symmetry; apply orb_true_iff.
  destruct Hn; [left | right]; apply Z.ltb_lt; assumption.
Qed.

Lemma bytes_read_nonpos (p : slice) (n : Z) : n <= 0 -> bytes_read p n = [].
Proof.
  intros Hn; unfold bytes_read.
  replace (Z.to_nat n) with O by lia; reflexivity.
Qed.

(** ** One call on the wrapper *)

Section OneCall.
Context {S : Type} `{io_Reader S}.

Lemma Reader_Read_pending (rd : Reader S) (p : slice) (x : error_value) :
  err rd = Some x ->
  Reader_Read rd p = ({| err := None; r := r rd |}, p, 0, Some x).
Proof.
  intros Hx; unfold Reader_Read, Reader_Err; rewrite Hx; reflexivity.
Qed.

Lemma Reader_Read_deferred (rd : Reader S) (p p' : slice) (s' : S)
  (n : Z) (x : error_value) :
  err rd = None -> call_Read (r rd) p = (s', p', n, Some x) -> n <> 0 ->
  Reader_Read rd p = ({| err := Some x; r := s' |}, p', n, None).
Proof.
  intros Hclear Hcall Hn; unfold Reader_Read; rewrite Hclear, Hcall.
  cbn [is_nil_error negb].
  destruct (Z.eqb_spec n 0) as [E|_]; [contradiction | reflexivity].
Qed.

Lemma Reader_Read_through (rd : Reader S) (p p' : slice) (s' : S)
  (n : Z) (e : error) :
  err rd = None -> call_Read (r rd) p = (s', p', n, e) ->
  n = 0 \/ e = None ->
  Reader_Read rd p = ({| err := None; r := s' |}, p', n, e).
Proof.
  intros Hclear Hcall Hcase; unfold Reader_Read; rewrite Hclear, Hcall.
  cbn [is_nil_error negb].
  destruct Hcase as [-> | ->]; cbn [Z.eqb negb andb is_nil_error].
  - reflexivity.
  - rewrite andb_false_r; reflexivity.
Qed.

Lemma Reader_Read_case (rd : Reader S) (p : slice) :
  Read_case rd p (Reader_Read rd p).
Proof.
  destruct (err rd) as [x|] eqn:Hslot.
  - rewrite (Reader_Read_pending rd p Hslot); constructor; assumption.
  - destruct (call_Read (r rd) p) as [[[s' p'] n] e] eqn:Hcall.
    destruct (Z.eq_dec n 0) as [Hn|Hn].
    + rewrite (Reader_Read_through rd p Hslot Hcall (or_introl Hn)).
      eapply Read_through; eauto.
    + destruct e as [x|].
      * rewrite (Reader_Read_deferred rd p Hslot Hcall Hn).
        eapply Read_deferred; eauto.
      * rewrite (Reader_Read_through rd p Hslot Hcall (or_intror eq_refl)).
        eapply Read_through; eauto.
Qed.

End OneCall.

(** ** The wrapper's contract, call by call *)

(** C4. A [Read] that finds the error slot occupied returns [(0, stored)],
    leaves the slot empty and does not call the wrapped source: the source's
    state and the caller's buffer are what they were, whatever the source is,
    and a recording source has logged nothing. *)
Theorem Reader_Read_pending_slot (S : Type) (H : io_Reader S)
  (rd : Reader S) (p : slice) (x : error_value) :
  err rd = Some x ->
  Reader_Read rd p = ({| err := None; r := r rd |}, p, 0, Some x) /\
  forall l : list (slice * Z * error),
    Reader_Read {| err := err rd; r := mkRecorder (r rd) l |} p =
    ({| err := None; r := mkRecorder (r rd) l |}, p, 0, Some x).
Proof.
  intros Hx; split.
  - apply Reader_Read_pending; assumption.
  - intros l; apply Reader_Read_pending; assumption.
Qed.

Lemma Reader_Read_pending_slot_witness :
  let rd := {| err := Some io_EOF; r := Some (NewBasic "left") |} in
  err rd = Some io_EOF /\
  Reader_Read rd (make 4) = ({| err := None; r := r rd |}, make 4, 0, Some io_EOF).
Proof.
  split; [reflexivity|].
  apply (Reader_Read_pending_slot _ _ (make 4) (x := io_EOF)); reflexivity.
Defined.

(** C5. When the slot is empty the source is read once; if it returns
    [n <> 0] with a non-nil error, that error goes into the slot and the call
    returns [(n, nil)]; otherwise the call returns the source's [(n, err)]
    as it is and the slot stays empty. *)
Theorem Reader_Read_stores_error (S : Type) (H : io_Reader S)
  (rd : Reader S) (p p' : slice) (s' : S) (n : Z) (e : error) :
  err rd = None ->
  call_Read (r rd) p = (s', p', n, e) ->
  (forall x, n <> 0 -> e = Some x ->
     Reader_Read rd p = ({| err := Some x; r := s' |}, p', n, None)) /\
  (n = 0 \/ e = None ->
     Reader_Read rd p = ({| err := None; r := s' |}, p', n, e)).
Proof.
  intros Hclear Hcall; split.
  - intros x Hn ->; apply Reader_Read_deferred; assumption.
  - intros Hcase; apply Reader_Read_through; assumption.
Qed.

Lemma Reader_Read_stores_error_witness :
  let rd := {| err := None; r := Some (NewBasic "ld!") |} in
  Reader_Read rd (make 10) =
  ({| err := Some io_EOF; r := Some [] |},
   Slice (list_byte_of_string "ld!" ++ repeat x00 7) [], 3, None).
Proof.
  refine (proj1 (Reader_Read_stores_error _
                   {| err := None; r := Some (NewBasic "ld!") |} (make 10)
                   eq_refl eq_refl) io_EOF _ eq_refl).
  discriminate.
Defined.

(** C6. [Err] returns what the slot holds, nil when it is empty, and empties
    it in the same step; a second [Err] right after the first returns nil. *)
Theorem Reader_Err_twice (S : Type) (rd : Reader S) :
  snd (Reader_Err rd) = err rd /\
  fst (Reader_Err rd) = {| err := None; r := r rd |} /\
  snd (Reader_Err (fst (Reader_Err rd))) = None.
Proof. repeat split. Qed.

(** ** Sequences of calls *)

Section Runs.
Context {S : Type} `{io_Reader S}.

Lemma run_cons (rd : Reader S) (c : call) (cs : list call) :
  run rd (c :: cs) =
  (fst (run (fst (step rd c)) cs), snd (step rd c) :: snd (run (fst (step rd c)) cs)).
Proof.
  cbn [run]. destruct (step rd c) as [rd1 x]; cbn [fst snd].
  destruct (run rd1 cs) as [rd2 xs]; reflexivity.
Qed.

Lemma step_Read (rd : Reader S) (p : slice) :
  step rd (CallRead p) =
  (fst (fst (fst (Reader_Read rd p))),
   ReadReply (snd (fst (fst (Reader_Read rd p))))
             (snd (fst (Reader_Read rd p))) (snd (Reader_Read rd p))).
Proof.
  cbn [step]; destruct (Reader_Read rd p) as [[[rd' p'] n] e]; reflexivity.
Qed.

Lemma reply_bytes_cons (x : reply) (xs : list reply) :
  reply_bytes (x :: xs) = reply_bytes [x] ++ reply_bytes xs.
Proof.
  destruct x as [p n e|e]; cbn [reply_bytes]; [|reflexivity].
  destruct (0 <? n); [rewrite app_nil_r|]; reflexivity.
Qed.

Lemma reply_errors_cons (x : reply) (xs : list reply) :
  reply_errors (x :: xs) = reply_errors [x] ++ reply_errors xs.
Proof. destruct x as [p n [y|]|[y|]]; reflexivity. Qed.

Lemma reply_bytes_Read (p : slice) (n : Z) (e : error) :
  reply_bytes [ReadReply p n e] = bytes_read p n.
Proof.
  cbn [reply_bytes]; destruct (Z.ltb_spec 0 n).
  - apply app_nil_r.
  - symmetry; apply bytes_read_nonpos; assumption.
Qed.

Lemma log_bytes_app (l1 l2 : list (slice * Z * error)) :
  log_bytes (l1 ++ l2) = log_bytes l1 ++ log_bytes l2.
Proof.
  induction l1 as [|[[p n] e] l1 IH]; cbn [log_bytes app]; [reflexivity|].
  rewrite IH, app_assoc; reflexivity.
Qed.

Lemma log_errors_app (l1 l2 : list (slice * Z * error)) :
  log_errors (l1 ++ l2) = log_errors l1 ++ log_errors l2.
Proof.
  induction l1 as [|[[p n] [x|]] l1 IH]; cbn [log_errors app];
    rewrite ?IH; reflexivity.
Qed.

End Runs.

(** ** Wrapping a recording source *)

Section Recording.
Context {S : Type} `{io_Reader S}.

(** A recording source hands its [inner] source's answer through. *)
Lemma call_Read_Recorder (rc rc' : Recorder S) (p p' : slice) (n : Z)
  (e : error) :
  call_Read rc p = (rc', p', n, e) ->
  call_Read (inner rc) p = (inner rc', p', n, e) /\
  log rc' = log rc ++ [(p', n, e)].
Proof.
  unfold call_Read, io_Read at 1, Recorder_io_Reader.
  destruct (io_Read (inner rc) p) as [[[s' w] n'] e'].
  intros Heq; inversion Heq; subst; split; reflexivity.
Qed.

(** What one call adds to the log, against what it hands to the caller. *)
Lemma step_Recorder (rc : Reader (Recorder S)) (c : call) :
  exists new,
    step (unrecord rc) c = (unrecord (fst (step rc c)), snd (step rc c)) /\
    log (r (fst (step rc c))) = log (r rc) ++ new /\
    log_bytes new = reply_bytes [snd (step rc c)] /\
    pending rc ++ log_errors new =
    reply_errors [snd (step rc c)] ++ pending (fst (step rc c)).
Proof.
  destruct c as [p|].
  - rewrite !step_Read; cbn [fst snd].
    destruct (Reader_Read_case rc p)
      as [x Hx | rc' p' n x Hclear Hcall Hn | rc' p' n e Hclear Hcall Hcase].
    + exists []; cbn [fst snd].
      rewrite (Reader_Read_pending (unrecord rc) p (x := x)) by exact Hx.
      unfold pending; cbn [err r unrecord]; rewrite Hx, app_nil_r.
      repeat split.
    + destruct (call_Read_Recorder _ _ Hcall) as [Hin Hlog].
      exists [(p', n, Some x)]; cbn [fst snd].
      rewrite (Reader_Read_deferred (unrecord rc) p (s' := inner rc')
                 (p' := p') (n := n) (x := x)) by assumption.
      unfold pending; cbn [err r unrecord fst snd]; rewrite Hclear.
      rewrite reply_bytes_Read; cbn [log_bytes log_errors reply_errors app].
      rewrite app_nil_r; repeat split; assumption.
    + destruct (call_Read_Recorder _ _ Hcall) as [Hin Hlog].
      exists [(p', n, e)]; cbn [fst snd].
      rewrite (Reader_Read_through (unrecord rc) p (s' := inner rc')
                 (p' := p') (n := n) (e := e)) by assumption.
      unfold pending; cbn [err r unrecord fst snd]; rewrite Hclear.
      rewrite reply_bytes_Read; cbn [log_bytes log_errors reply_errors app].
      rewrite app_nil_r; repeat split; try assumption.
      destruct e; reflexivity.
  - exists []; cbn [step Reader_Err fst snd unrecord err r].
    unfold pending; cbn [err]; rewrite !app_nil_r.
    repeat split; destruct (err rc); reflexivity.
Qed.

Lemma run_Recorder (cs : list call) :
  forall rc : Reader (Recorder S),
  exists new,
    run (unrecord rc) cs = (unrecord (fst (run rc cs)), snd (run rc cs)) /\
    log (r (fst (run rc cs))) = log (r rc) ++ new /\
    log_bytes new = reply_bytes (snd (run rc cs)) /\
    pending rc ++ log_errors new =
    reply_errors (snd (run rc cs)) ++ pending (fst (run rc cs)).
Proof.
  induction cs as [|c cs IH]; intros rc.
  - exists []; cbn [run fst snd reply_bytes reply_errors log_bytes log_errors app].
    rewrite !app_nil_r; repeat split.
  - destruct (step_Recorder rc c) as (new1 & Hsim1 & Hlog1 & Hb1 & He1).
    destruct (IH (fst (step rc c))) as (new2 & Hsim2 & Hlog2 & Hb2 & He2).
    exists (new1 ++ new2).
    rewrite (run_cons rc), (run_cons (unrecord rc)), Hsim1; cbn [fst snd].
    rewrite Hsim2; cbn [fst snd].
    rewrite Hlog2, Hlog1, app_assoc, log_bytes_app, log_errors_app.
    rewrite reply_bytes_cons, reply_errors_cons, Hb1, Hb2.
    repeat split.
    rewrite app_assoc, He1, <- !app_assoc, He2; reflexivity.
Qed.

End Recording.

(** ** The wrapper's contract over whole runs *)

(** C1. Whatever the wrapped source does and whatever calls are made, in
    whatever state the wrapper starts, a [Read] that returns [n > 0] returns
    a nil error. *)
Theorem Reader_Read_strict (S : Type) (H : io_Reader S) (rd : Reader S)
  (cs : list call) :
  Forall strict (snd (run rd cs)).
Proof.
  revert rd; induction cs as [|c cs IH]; intros rd.
  - constructor.
  - rewrite run_cons; cbn [snd]; constructor; [|apply IH].
    destruct c as [p|]; [|exact I].
    rewrite step_Read; cbn [snd strict].
    destruct (Reader_Read_case rd p)
      as [x Hx | s' p' n x Hclear Hcall Hn | s' p' n e Hclear Hcall [Hn | He]];
      cbn [fst snd]; intros Hpos; solve [reflexivity | assumption | lia].
Qed.

(** Seen by a recorder placed around the source: the bytes of the wrapper's
    non-empty results are the bytes of the reads the recorder logged, and
    the recorder does not change what the wrapper returns. *)
Lemma run_recorded_bytes (S : Type) (H : io_Reader S) (e0 : error) (s : S)
  (cs : list call) :
  let plain := run {| err := e0; r := s |} cs in
  let rec := run {| err := e0; r := record s |} cs in
  snd rec = snd plain /\
  unrecord (fst rec) = fst plain /\
  reply_bytes (snd plain) = log_bytes (log (r (fst rec))).
Proof.
  cbv zeta.
  destruct (run_Recorder cs {| err := e0; r := record s |})
    as (new & Hsim & Hlog & Hbytes & _).
  change (unrecord {| err := e0; r := record s |})
    with {| err := e0; r := s |} in Hsim.
  rewrite Hsim; cbn [fst snd]; repeat split.
  rewrite Hlog; cbn [r record log app]; symmetry; exact Hbytes.
Qed.

(** C3. The non-nil errors the source returned are the non-nil errors the
    caller received from [Read] and [Err], in the same order and each once,
    followed by the one still in the slot if the run stopped there.  An
    error that comes with [n = 0] is returned by the same call; one that
    comes with [n <> 0] is returned by the next call, [Err] or [Read], which
    empties the slot. *)
Theorem Reader_errors_once (S : Type) (H : io_Reader S) (s : S)
  (cs : list call) :
  let plain := run {| err := None; r := s |} cs in
  let rec := run {| err := None; r := record s |} cs in
  snd rec = snd plain /\
  log_errors (log (r (fst rec))) =
    reply_errors (snd plain) ++ pending (fst plain) /\
  (err (fst plain) = None ->
   log_errors (log (r (fst rec))) = reply_errors (snd plain)) /\
  (forall (p p' : slice) (s' : S) (n : Z) (x : error_value),
     call_Read s p = (s', p', n, Some x) ->
     (n = 0 ->
      Reader_Read {| err := None; r := s |} p =
      ({| err := None; r := s' |}, p', 0, Some x)) /\
     (n <> 0 ->
      Reader_Read {| err := None; r := s |} p =
      ({| err := Some x; r := s' |}, p', n, None) /\
      Reader_Err {| err := Some x; r := s' |} =
      ({| err := None; r := s' |}, Some x) /\
      forall q, Reader_Read {| err := Some x; r := s' |} q =
                ({| err := None; r := s' |}, q, 0, Some x))).
Proof.
  cbv zeta.
  destruct (run_Recorder cs {| err := None; r := record s |})
    as (new & Hsim & Hlog & _ & Herrs).
  change (unrecord {| err := None; r := record s |})
    with {| err := None; r := s |} in Hsim.
  rewrite Hsim; cbn [fst snd].
  rewrite Hlog; cbn [r record log app].
  change (pending {| err := None; r := record s |}) with (@nil error_value)
    in Herrs; cbn [app] in Herrs.
  assert (Hslot : pending (unrecord (fst (run {| err := None; r := record s |} cs)))
                  = pending (fst (run {| err := None; r := record s |} cs)))
    by reflexivity.
  repeat split.
  - rewrite Hslot; exact Herrs.
  - intros Hnone; rewrite Herrs.
    unfold pending; cbn [unrecord err] in Hnone; rewrite Hnone.
    apply app_nil_r.
  - intros ->; apply Reader_Read_through; auto.
  - apply Reader_Read_deferred; auto.
Qed.

(** ** The helper Read *)

Section Helper.
Context {S : Type} `{io_Reader S}.

(** A callee cannot change the header of the caller's slice. *)
Lemma call_Read_header (src s' : S) (p p' : slice) (n : Z) (e : error) :
  call_Read src p = (s', p', n, e) ->
  len p' = len p /\ cap p' = cap p /\ is_nil_slice p' = is_nil_slice p.
Proof.
  unfold call_Read; destruct (io_Read src p) as [[[s1 w] n1] e1].
  intros Heq; inversion Heq; subst.
  auto using store_len, store_cap, store_is_nil.
Qed.

(** A nil buffer comes back nil, whatever count the source reports. *)
Lemma Read_nil_buffer (src : S) :
  exists s' n e,
    call_Read src nil_slice = (s', nil_slice, n, e) /\
    Read src nil_slice = Return (s', nil_slice, e).
Proof.
  unfold Read, call_Read; cbn [slice_to cap elems spare length Nat.add
    Z.of_nat Z.ltb Z.compare orb go_bind].
  destruct (io_Read src nil_slice) as [[[s' w] n] e].
  exists s', n, e; split; reflexivity.
Qed.

(** A count outside the buffer makes the final [p[:n]] panic. *)
Lemma Read_count_out_of_bounds (src s' : S) (p p1 p2 : slice) (n : Z)
  (e : error) :
  slice_to p (cap p) = Return p1 ->
  call_Read src p1 = (s', p2, n, e) ->
  is_nil_slice p = false -> n < 0 \/ cap p < n ->
  Read src p = Panic "slice bounds out of range".
Proof.
  intros Hgrow Hcall Hnil Hn.
  destruct (slice_to_cap p) as (p1' & Hgrow' & _ & Hcap1 & Hnil1).
  rewrite Hgrow in Hgrow'; injection Hgrow' as <-.
  destruct (call_Read_header _ _ Hcall) as (_ & Hcap2 & Hnil2).
  unfold Read; rewrite Hgrow; cbn [go_bind]; rewrite Hcall.
  rewrite Hnil2, Hnil1, Hnil; cbn [negb].
  rewrite slice_to_out_of_bounds by lia; reflexivity.
Qed.

End Helper.

(** C7. For every buffer [p], nil or not, and every source that reports a
    count [n] within the buffer it is given ([0 <= n <= len], the io.Reader
    contract), [Read] returns a slice of length exactly [n]: the first [n]
    bytes of the buffer as the source left it.  The helper makes no buffer
    of its own: the result is the slice expression [p[:n]] on the caller's
    buffer, over the same backing array and with the same capacity, and it
    is nil exactly when [p] is nil. *)
Theorem Read_right_sized (S : Type) (H : io_Reader S) (src s' : S)
  (p p1 p2 : slice) (n : Z) (e : error) :
  slice_to p (cap p) = Return p1 ->
  call_Read src p1 = (s', p2, n, e) ->
  0 <= n <= len p1 ->
  exists q,
    Read src p = Return (s', q, e) /\
    slice_to p2 n = Return q /\
    len p1 = cap p /\
    len q = n /\
    elems q = bytes_read p2 n /\
    elems q ++ spare q = elems p2 ++ spare p2 /\
    cap q = cap p /\
    is_nil_slice q = is_nil_slice p.
Proof.
  intros Hgrow Hcall Hn.
  destruct (slice_to_cap p) as (p1' & Hgrow' & Hlen1 & Hcap1 & Hnil1).
  rewrite Hgrow in Hgrow'; injection Hgrow' as <-.
  destruct (call_Read_header _ _ Hcall) as (Hlen2 & Hcap2 & Hnil2).
  unfold Read; rewrite Hgrow; cbn [go_bind]; rewrite Hcall.
  destruct p2 as [|e2 s2]; cbn [is_nil_slice negb go_bind].
  - exists nil_slice.
    assert (n = 0) by (change (len nil_slice) with 0 in Hlen2; lia); subst n.
    repeat split; congruence.
  - destruct (slice_to_in_bounds (Slice e2 s2) (n := n))
      as (q & Hq & Hlenq & Hcapq & Harr & Hnilq); [lia|].
    exists q; rewrite Hq; cbn [go_bind].
    repeat split; try congruence.
    unfold bytes_read.
    assert (Hfit : (Z.to_nat n <= length e2)%nat)
      by (unfold len in Hlen2, Hn; cbn [elems] in Hlen2; lia).
    assert (Hq_len : length (elems q) = Z.to_nat n) by (unfold len in Hlenq; lia).
    cbn [elems spare] in Harr |- *.
    rewrite <- (firstn_skipn (Z.to_nat n) e2), <- app_assoc in Harr.
    apply (f_equal (firstn (Z.to_nat n))) in Harr.
    rewrite !firstn_app in Harr.
    rewrite Hq_len, length_firstn, Nat.min_l, Nat.sub_diag in Harr by lia.
    cbn [firstn] in Harr; rewrite !app_nil_r in Harr.
    rewrite <- Hq_len, firstn_all in Harr at 1.
    rewrite Harr, firstn_firstn, Nat.min_id; reflexivity.
Qed.

Lemma Read_right_sized_witness :
  exists q,
    Read (Some (NewBasic "Hello, World!")) (Slice [] (repeat x00 10)) =
      Return (Some (NewBasic "ld!"), q, None) /\
    slice_to (Slice (list_byte_of_string "Hello, Wor") []) 10 = Return q /\
    len (make 10) = cap (Slice [] (repeat x00 10)) /\
    len q = 10 /\
    elems q =
      bytes_read (Slice (list_byte_of_string "Hello, Wor") []) 10 /\
    elems q ++ spare q = list_byte_of_string "Hello, Wor" ++ [] /\
    cap q = cap (Slice [] (repeat x00 10)) /\
    is_nil_slice q = is_nil_slice (Slice [] (repeat x00 10)).
Proof.
  apply (Read_right_sized basic_io_Reader
           (Some (NewBasic "Hello, World!")) (Slice [] (repeat x00 10))
           (p1 := make 10)).
  - reflexivity.
  - reflexivity.
  - vm_compute; split; discriminate.
Defined.

(** Outside the io.Reader contract: when a source reports 3 bytes read into
    a nil buffer, the helper returns the nil buffer as it is, because the
    final [p[:n]] is guarded by [p != nil]. *)
Lemma Read_nil_buffer_overcount :
  let src : io_Reader unit := fun s p => (s, elems p, 3, None) in
  @call_Read unit src tt nil_slice = (tt, nil_slice, 3, None) /\
  @Read unit src tt nil_slice = Return (tt, nil_slice, None) /\
  len nil_slice <> 3.
Proof. cbv zeta; repeat split; discriminate. Qed.

(** ** The basic source *)

(** C10. A [Read] through a nil receiver returns [(0, io.ErrUnexpectedEOF)]:
    it does not panic, does not report end of stream, and leaves the caller's
    buffer as it was. *)
Theorem basic_Read_nil_receiver (p : slice) :
  basic_Read None p = (None, elems p, 0, Some io_ErrUnexpectedEOF) /\
  call_Read (None : option basic) p = (None, p, 0, Some io_ErrUnexpectedEOF) /\
  Some io_ErrUnexpectedEOF <> Some io_EOF.
Proof.
  repeat split; [|discriminate].
  unfold call_Read, io_Read, basic_io_Reader; cbn [basic_Read].
  rewrite store_elems; reflexivity.
Qed.

(** C8, as the code has it. While the source still holds at least one byte,
    a [Read] with an empty destination buffer returns [(0, nil)] and leaves
    the stored bytes, and the buffer, untouched. *)
Theorem basic_Read_empty_buffer (bs : basic) (p : slice) :
  bs <> [] -> len p = 0 ->
  basic_Read (Some bs) p = (Some bs, elems p, 0, None) /\
  call_Read (Some bs) p = (Some bs, p, 0, None).
Proof.
  intros Hbs Hp.
  assert (Hread : basic_Read (Some bs) p = (Some bs, elems p, 0, None)).
  { unfold basic_Read.
    destruct (Z.eqb_spec (Z.of_nat (length bs)) 0) as [Hlen|_].
    - destruct bs; [contradiction | discriminate].
    - rewrite Hp; reflexivity. }
  split; [exact Hread|].
  unfold call_Read, io_Read, basic_io_Reader; rewrite Hread, store_elems.
  reflexivity.
Qed.

Lemma basic_Read_empty_buffer_witness :
  basic_Read (Some (NewBasic "Hello, World!")) (make 0) =
    (Some (NewBasic "Hello, World!"), elems (make 0), 0, None) /\
  call_Read (Some (NewBasic "Hello, World!")) (make 0) =
    (Some (NewBasic "Hello, World!"), make 0, 0, None).
Proof.
  apply (@basic_Read_empty_buffer (NewBasic "Hello, World!") (make 0)).
  - discriminate.
  - reflexivity.
Defined.

(** C8, as stated, fails once the source is exhausted: the end-of-stream test
    comes first, so an empty destination buffer gets [(0, io.EOF)]. *)
Lemma basic_Read_empty_buffer_at_EOF :
  len (make 0) = 0 /\
  call_Read (Some (NewBasic "")) (make 0) =
    (Some (NewBasic ""), make 0, 0, Some io_EOF) /\
  ~ (forall (b : option basic) (p : slice),
       len p = 0 -> call_Read b p = (b, p, 0, None)).
Proof.
  split; [reflexivity|]; split; [reflexivity|].
  intros Hall.
  specialize (Hall (Some (NewBasic "")) (make 0) eq_refl).
  discriminate Hall.
Qed.

(** C9. Scenario A: "Hello, World!" read through the wrapper with a buffer of
    length 10 gives 10 bytes "Hello, Wor" and nil, then 3 bytes "ld!" and
    nil, then 0 bytes and io.EOF; the example's loop prints the two lines. *)
Theorem ExampleReader_reads :
  let b := NewBasic "Hello, World!" in
  exists rd,
    NewReader (Some (Some b)) = Return rd /\
    read_n 3 rd (make 10) =
      [ (10, list_byte_of_string "Hello, Wor", None);
        (3, list_byte_of_string "ld!", None);
        (0, [], Some io_EOF) ] /\
    ExampleReader_loop 3 rd (make 10) = Some ["Hello, Wor"%string; "ld!"%string].
Proof.
  cbv zeta; eexists; split; [reflexivity|]; split; vm_compute; reflexivity.
Qed.

(** Each read of [basic] hands over the front of the stored bytes and keeps
    the rest. *)
Lemma basic_call_Read_split (bs : basic) (p p' : slice) (b' : option basic)
  (n : Z) (e : error) :
  call_Read (Some bs) p = (b', p', n, e) ->
  exists bs', b' = Some bs' /\ bs = bytes_read p' n ++ bs'.
Proof.
  unfold call_Read, io_Read, basic_io_Reader, basic_Read.
  destruct (Z.eqb_spec (Z.of_nat (length bs)) 0) as [Hlen|Hlen].
  { intros Heq; inversion Heq; subst; exists bs; split; reflexivity. }
  destruct (Z.eqb_spec (len p) 0) as [Hp|Hp].
  { intros Heq; inversion Heq; subst; exists bs; split; reflexivity. }
  destruct p as [|ep sp]; [contradiction Hp; reflexivity|].
  unfold copy, bytes_read, len; cbn [elems store fst].
  destruct (Z.leb_spec (Z.of_nat (length ep)) (Z.of_nat (length bs))) as [Hfit|Hbig];
    intros Heq; inversion Heq; subst; clear Heq; eexists; (split; [reflexivity|]);
    cbn [elems]; rewrite !Nat2Z.id;
    change (firstn (length ep) bs ++ skipn (length bs) ep)
      with (fst (copy ep bs));
    change (firstn (length ep) (fst (copy ep bs)) ++
            skipn (length (fst (copy ep bs))) ep)
      with (fst (copy ep (fst (copy ep bs)))).
  - rewrite copy_fits by (rewrite (copy_length ep bs); reflexivity).
    unfold copy; cbn [fst].
    rewrite (skipn_all2 ep), app_nil_r by lia.
    rewrite firstn_firstn, !Nat.min_l by lia.
    symmetry; apply firstn_skipn.
  - rewrite copy_fits by (rewrite (copy_length ep bs); reflexivity).
    unfold copy; cbn [fst].
    rewrite (firstn_all2 bs) by lia.
    rewrite Nat.min_r by lia.
    rewrite firstn_app, Nat.sub_diag, firstn_all; cbn [firstn].
    rewrite !app_nil_r; reflexivity.
Qed.

(** X14. Wrapped in a [Reader] and read into buffers that do not overlap
    its stored bytes, [basic] gives its bytes in order: what the reads
    returned so far, followed by what is still stored, is the content. *)
Lemma wrapped_basic_bytes (cs : list call) :
  forall (e0 : error) (bs : basic),
  exists bs',
    r (fst (run {| err := e0; r := Some bs |} cs)) = Some bs' /\
    bs = reply_bytes (snd (run {| err := e0; r := Some bs |} cs)) ++ bs'.
Proof.
  induction cs as [|c cs IH]; intros e0 bs.
  - exists bs; split; reflexivity.
  - rewrite run_cons; cbn [fst snd]; rewrite reply_bytes_cons.
    destruct c as [p|].
    + rewrite step_Read; cbn [fst snd]; rewrite reply_bytes_Read.
      destruct (Reader_Read_case {| err := e0; r := Some bs |} p)
        as [x Hx | s' p' n x Hclear Hcall Hn | s' p' n e Hclear Hcall Hcase];
        cbn [fst snd err r] in *.
      * rewrite bytes_read_nonpos by lia; apply IH.
      * destruct (basic_call_Read_split _ _ Hcall) as (bs1 & -> & ->).
        destruct (IH (Some x) bs1) as (bs' & Hr & Hb).
        exists bs'; split; [exact Hr|].
        rewrite <- app_assoc, <- Hb; reflexivity.
      * destruct (basic_call_Read_split _ _ Hcall) as (bs1 & -> & ->).
        destruct (IH None bs1) as (bs' & Hr & Hb).
        exists bs'; split; [exact Hr|].
        rewrite <- app_assoc, <- Hb; reflexivity.
    + cbn [step Reader_Err fst snd reply_bytes app r]; apply IH.
Qed.

(** ** More on the basic source *)

Lemma copy_firstn (dst src : list byte) :
  firstn (Nat.min (length dst) (length src)) (fst (copy dst src)) =
  firstn (Nat.min (length dst) (length src)) src.
Proof.
  unfold copy; cbn [fst].
  destruct (Nat.le_ge_cases (length dst) (length src)) as [Hle|Hge].
  - rewrite Nat.min_l, (skipn_all2 dst), app_nil_r, firstn_firstn, Nat.min_id
      by lia; reflexivity.
  - rewrite Nat.min_r, (firstn_all2 src), firstn_app, Nat.sub_diag by lia.
    cbn [firstn]; rewrite app_nil_r; reflexivity.
Qed.

Lemma copy_skipn (dst src : list byte) :
  skipn (Nat.min (length dst) (length src)) (fst (copy dst src)) =
  skipn (Nat.min (length dst) (length src)) dst.
Proof.
  unfold copy; cbn [fst].
  destruct (Nat.le_ge_cases (length dst) (length src)) as [Hle|Hge].
  - rewrite Nat.min_l, (skipn_all2 dst (n := length src)), app_nil_r by lia.
    rewrite !skipn_all2 by (rewrite ?length_firstn; lia); reflexivity.
  - rewrite Nat.min_r, (firstn_all2 src), skipn_app, Nat.sub_diag by lia.
    rewrite skipn_all; reflexivity.
Qed.

(** One read of [basic] in closed form. *)
Lemma basic_call_Read_closed (bs : basic) (p : slice) :
  exists p',
    call_Read (Some bs) p =
      (Some (skipn (Nat.min (length (elems p)) (length bs)) bs), p',
       Z.of_nat (Nat.min (length (elems p)) (length bs)),
       if (length bs =? 0)%nat || (length bs <? length (elems p))%nat
       then Some io_EOF else None) /\
    firstn (Nat.min (length (elems p)) (length bs)) (elems p') =
      firstn (Nat.min (length (elems p)) (length bs)) bs /\
    skipn (Nat.min (length (elems p)) (length bs)) (elems p') =
      skipn (Nat.min (length (elems p)) (length bs)) (elems p) /\
    len p' = len p /\ cap p' = cap p /\ is_nil_slice p' = is_nil_slice p.
Proof.
  unfold call_Read, io_Read, basic_io_Reader, basic_Read.
  destruct (Z.eqb_spec (Z.of_nat (length bs)) 0) as [Hb|Hb].
  { assert (bs = []) by (destruct bs; [reflexivity | discriminate]); subst bs.
    exists p; rewrite store_elems, Nat.min_0_r; repeat split. }
  destruct (Nat.eqb_spec (length bs) 0) as [Hb0|_]; [lia|]; cbn [orb].
  destruct (Z.eqb_spec (len p) 0) as [Hp|Hp].
  { exists p; rewrite store_elems.
    assert (Hz : length (elems p) = O) by (unfold len in Hp; lia).
    rewrite Hz; cbn [Nat.min Nat.ltb Nat.leb skipn firstn]; repeat split. }
  destruct (copy (elems p) bs) as [w n] eqn:Hcopy.
  assert (Hw : w = fst (copy (elems p) bs)) by (rewrite Hcopy; reflexivity).
  assert (Hn : n = Z.of_nat (Nat.min (length (elems p)) (length bs)))
    by (unfold copy in Hcopy; inversion Hcopy; reflexivity).
  subst w n; clear Hcopy.
  exists (store p (fst (copy (elems p) bs))).
  assert (Helems : elems (store p (fst (copy (elems p) bs))) =
                   fst (copy (elems p) bs)).
  { destruct p as [|ep sp]; [contradiction Hp; reflexivity|].
    cbn [store elems]; apply copy_fits, copy_length. }
  rewrite Helems, copy_firstn, copy_skipn.
  unfold len in Hp.
  destruct (Z.leb_spec (len p) (Z.of_nat (length bs))) as [Hfit|Hbig];
    unfold len in *.
  - destruct (Nat.ltb_spec (length bs) (length (elems p))) as [Hlt|_]; [lia|].
    rewrite Nat2Z.id, Nat.min_l by lia.
    repeat split; auto using store_len, store_cap, store_is_nil.
    rewrite Helems, copy_length; reflexivity.
  - destruct (Nat.ltb_spec (length bs) (length (elems p))) as [_|Hge]; [|lia].
    rewrite Nat.min_r, skipn_all by lia.
    repeat split; auto using store_len, store_cap, store_is_nil.
    rewrite Helems, copy_length; reflexivity.
Qed.

Lemma basic_call_Read_exhausted (p : slice) :
  call_Read (Some ([] : basic)) p = (Some [], p, 0, Some io_EOF).
Proof.
  unfold call_Read, io_Read, basic_io_Reader; cbn [basic_Read length Z.of_nat Z.eqb].
  rewrite store_elems; reflexivity.
Qed.

(** X1. [basic.Read] reports [n = min(len(p), len( *b))] for a non-nil
    receiver; for every receiver, nil included, the count obeys the
    io.Reader contract [0 <= n <= len(p)]. *)
Theorem basic_Read_count (bs : basic) (p : slice) :
  count_of (call_Read (Some bs) p) = Z.min (len p) (Z.of_nat (length bs)) /\
  forall b : option basic, 0 <= count_of (call_Read b p) <= len p.
Proof.
  assert (Hsome : forall l : basic,
            count_of (call_Read (Some l) p) = Z.min (len p) (Z.of_nat (length l))).
  { intros l; destruct (basic_call_Read_closed l p) as (p' & -> & _).
    unfold count_of, len; cbn [fst snd]; lia. }
  split; [apply Hsome|].
  intros [l|].
  - rewrite Hsome; unfold len; lia.
  - unfold call_Read, io_Read, basic_io_Reader, count_of, len; cbn; lia.
Qed.

(** X2. A read of [basic] into a buffer that does not overlap the stored
    bytes hands over the first [n] stored bytes in [p[:n]], keeps the rest as
    the new stored sequence, and leaves the buffer beyond [n] and the slice
    header as they were; nothing is lost or repeated. *)
Theorem basic_Read_data (bs : basic) (p : slice) :
  let x := call_Read (Some bs) p in
  let n := Z.to_nat (count_of x) in
  state_of x = Some (skipn n bs) /\
  bytes_read (buffer_of x) (count_of x) = firstn n bs /\
  bytes_read (buffer_of x) (count_of x) ++ skipn n bs = bs /\
  skipn n (elems (buffer_of x)) = skipn n (elems p) /\
  len (buffer_of x) = len p /\ cap (buffer_of x) = cap p /\
  is_nil_slice (buffer_of x) = is_nil_slice p.
Proof.
  cbv zeta.
  destruct (basic_call_Read_closed bs p)
    as (p' & -> & Hfirst & Hskip & Hlen & Hcap & Hnil).
  unfold state_of, buffer_of, count_of, bytes_read; cbn [fst snd].
  rewrite Nat2Z.id, Hfirst, firstn_skipn; repeat split; assumption.
Qed.

(** X3. The only error of a non-nil [basic] is io.EOF, returned exactly when
    the stored sequence is empty or shorter than the buffer; data and io.EOF
    come together exactly when the sequence is non-empty and shorter than
    the buffer. *)
Theorem basic_Read_error (bs : basic) (p : slice) :
  let x := call_Read (Some bs) p in
  (error_of x = Some io_EOF \/ error_of x = None) /\
  (error_of x = Some io_EOF <->
   bs = [] \/ Z.of_nat (length bs) < len p) /\
  (0 < count_of x /\ error_of x <> None <->
   0 < Z.of_nat (length bs) < len p).
Proof.
  cbv zeta.
  destruct (basic_call_Read_closed bs p) as (p' & -> & _).
  unfold error_of, count_of, len; cbn [fst snd].
  assert (Hnil : bs = [] <-> length bs = O)
    by (destruct bs; split; intros; [reflexivity | reflexivity | discriminate | discriminate]).
  destruct (Nat.eqb_spec (length bs) 0) as [Hz|Hnz]; cbn [orb];
    [|destruct (Nat.ltb_spec (length bs) (length (elems p))) as [Hlt|Hge]];
    repeat split; intros;
    repeat match goal with
           | H : _ /\ _ |- _ => destruct H
           | H : _ \/ _ |- _ => destruct H
           end;
    try (left; reflexivity); try (right; reflexivity);
    try discriminate; try congruence; try lia;
    try (left; apply Hnil; lia); try (right; lia);
    try (exfalso; apply Hnz, Hnil; assumption).
Qed.

Lemma source_run_cons (S : Type) (H : io_Reader S) (s : S) (p : slice)
  (ps : list slice) :
  source_run s (p :: ps) =
  (fst (source_run (state_of (call_Read s p)) ps),
   (buffer_of (call_Read s p), count_of (call_Read s p),
    error_of (call_Read s p))
   :: snd (source_run (state_of (call_Read s p)) ps)).
Proof.
  cbn [source_run]; destruct (call_Read s p) as [[[s1 p'] n] e].
  unfold state_of, buffer_of, count_of, error_of; cbn [fst snd].
  destruct (source_run s1 ps) as [s2 xs]; reflexivity.
Qed.

Lemma source_run_exhausted (ps : list slice) :
  source_run (Some ([] : basic)) ps =
  (Some [], map (fun q => (q, 0, Some io_EOF)) ps).
Proof.
  induction ps as [|q ps IH]; [reflexivity|].
  rewrite source_run_cons, basic_call_Read_exhausted.
  unfold state_of, buffer_of, count_of, error_of; cbn [fst snd map].
  unfold basic in IH |- *; rewrite IH; reflexivity.
Qed.

(** X4. Once EOF, always EOF: after a read of [basic] that returned io.EOF,
    with or without data, every later read returns [(0, io.EOF)], whatever
    the buffers, and writes nothing into them. *)
Theorem basic_EOF_sticky (bs : basic) (p : slice) (ps : list slice) :
  error_of (call_Read (Some bs) p) = Some io_EOF ->
  source_run (state_of (call_Read (Some bs) p)) ps =
  (Some [], map (fun q => (q, 0, Some io_EOF)) ps).
Proof.
  destruct (basic_call_Read_closed bs p) as (p' & -> & _).
  unfold error_of, state_of; cbn [fst snd]; intros He.
  assert (Hmin : Nat.min (length (elems p)) (length bs) = length bs).
  { destruct (Nat.eqb_spec (length bs) 0); [lia|]; cbn [orb] in He.
    destruct (Nat.ltb_spec (length bs) (length (elems p)));
      [lia | discriminate]. }
  rewrite Hmin, skipn_all; apply source_run_exhausted.
Qed.

Lemma basic_EOF_sticky_witness :
  source_run (state_of (call_Read (Some (NewBasic "ld!")) (make 10)))
             [make 10; make 0; nil_slice] =
  (Some [], map (fun q => (q, 0, Some io_EOF)) [make 10; make 0; nil_slice]).
Proof.
  apply (@basic_EOF_sticky (NewBasic "ld!") (make 10)); reflexivity.
Defined.

(** ** More on the wrapper *)

Section Wrapper.
Context {S : Type} `{io_Reader S}.

(** The buffer a call returns is the caller's buffer with new elements. *)
Lemma call_Read_shape (src : S) (p : slice) :
  store p (elems (buffer_of (call_Read src p))) = buffer_of (call_Read src p).
Proof.
  unfold call_Read; destruct (io_Read src p) as [[[s' w] n] e].
  unfold buffer_of; cbn [fst snd].
  destruct p as [|ep sp]; [reflexivity|]; cbn [store elems].
  rewrite (copy_fits ep (fst (copy ep w))) by apply copy_length; reflexivity.
Qed.

Lemma Reader_Read_shape (rd : Reader S) (p : slice) :
  store p (elems (buffer_of (Reader_Read rd p))) = buffer_of (Reader_Read rd p).
Proof.
  destruct (Reader_Read_case rd p)
    as [x Hx | s' p' n x Hclear Hcall Hn | s' p' n e Hclear Hcall Hcase];
    unfold buffer_of; cbn [fst snd].
  - apply store_elems.
  - generalize (call_Read_shape (r rd) p); rewrite Hcall; trivial.
  - generalize (call_Read_shape (r rd) p); rewrite Hcall; trivial.
Qed.

(** Data or an error, never both, on every single [Read]. *)
Lemma Reader_Read_data_or_error (rd : Reader S) (p : slice) :
  count_of (Reader_Read rd p) = 0 \/ error_of (Reader_Read rd p) = None.
Proof.
  destruct (Reader_Read_case rd p)
    as [x Hx | s' p' n x Hclear Hcall Hn | s' p' n e Hclear Hcall Hcase];
    unfold count_of, error_of; cbn [fst snd]; auto.
Qed.

End Wrapper.

(** Calling [Read] on a wrapper through the io.Reader interface is the
    method [Read]. *)
Lemma call_Read_Reader (S : Type) (H : io_Reader S) (rd : Reader S)
  (p : slice) :
  call_Read rd p = Reader_Read rd p.
Proof.
  unfold call_Read, io_Read at 1, Reader_io_Reader.
  generalize (Reader_Read_shape rd p).
  destruct (Reader_Read rd p) as [[[rd' p'] n] e].
  unfold buffer_of; cbn [fst snd]; intros ->; reflexivity.
Qed.

Lemma slice_to_Return (p q : slice) (n : Z) :
  slice_to p n = Return q ->
  len q = n /\ elems q ++ spare q = elems p ++ spare p /\
  is_nil_slice q = is_nil_slice p.
Proof.
  intros Hq.
  destruct (Z_lt_le_dec n 0) as [Hneg|Hpos].
  { rewrite slice_to_out_of_bounds in Hq by (left; exact Hneg); discriminate. }
  destruct (Z_lt_le_dec (cap p) n) as [Hbig|Hfit].
  { rewrite slice_to_out_of_bounds in Hq by (right; exact Hbig); discriminate. }
  destruct (slice_to_in_bounds p (n := n)) as (q' & Hq' & Hlen & _ & Harr & Hnil);
    [lia|].
  rewrite Hq in Hq'; injection Hq' as <-; auto.
Qed.

(** X5. A wrapper around a wrapper adds nothing: the inner wrapper is
    already strict, so the outer one never stores an error and every [Read]
    returns what the inner one returns. *)
Theorem Reader_of_Reader (S : Type) (H : io_Reader S) (rd : Reader S)
  (ps : list slice) :
  run {| err := None; r := rd |} (map CallRead ps) =
  ({| err := None; r := fst (run rd (map CallRead ps)) |},
   snd (run rd (map CallRead ps))).
Proof.
  revert rd; induction ps as [|p ps IH]; intros rd; [reflexivity|].
  cbn [map]; rewrite (run_cons rd), (run_cons {| err := None; r := rd |}).
  rewrite !step_Read; cbn [fst snd].
  assert (Houter : Reader_Read {| err := None; r := rd |} p =
                   ({| err := None; r := state_of (Reader_Read rd p) |},
                    buffer_of (Reader_Read rd p), count_of (Reader_Read rd p),
                    error_of (Reader_Read rd p))).
  { apply Reader_Read_through; [reflexivity | | apply Reader_Read_data_or_error].
    cbn [r]; rewrite call_Read_Reader.
    destruct (Reader_Read rd p) as [[[rd' p'] n] e]; reflexivity. }
  rewrite Houter; cbn [fst snd].
  unfold state_of, buffer_of, count_of, error_of in *.
  rewrite IH; reflexivity.
Qed.

(** X6. The helper on a wrapper: when [Read(r, p)] returns a non-empty
    slice, the error it returns with it is nil, whatever the wrapped source
    is. *)
Theorem Read_Reader_data_or_error (S : Type) (H : io_Reader S)
  (rd rd' : Reader S) (p q : slice) (e : error) :
  Read rd p = Return (rd', q, e) -> 0 < len q -> e = None.
Proof.
  unfold Read.
  destruct (slice_to_cap p) as (p1 & -> & _); cbn [go_bind].
  rewrite call_Read_Reader.
  destruct (Reader_Read_data_or_error rd p1) as [Hzero | Hnone];
    destruct (Reader_Read rd p1) as [[[rd1 p2] n] e1];
    unfold count_of, error_of in *; cbn [fst snd] in *.
  - subst n; destruct (is_nil_slice p2) eqn:Hnil; cbn [negb go_bind].
    + intros Heq; injection Heq as <- <- <-.
      destruct p2; [cbn; lia | discriminate].
    + destruct (slice_to p2 0) as [q0|msg] eqn:Hq; cbn [go_bind];
        [|discriminate].
      intros Heq; injection Heq as <- <- <-.
      destruct (slice_to_Return _ _ Hq) as (Hlen & _); lia.
  - subst e1; destruct (negb (is_nil_slice p2)); cbn [go_bind].
    + destruct (slice_to p2 n) as [q0|msg]; cbn [go_bind]; [|discriminate].
      intros Heq; injection Heq as <- <- <-; reflexivity.
    + intros Heq; injection Heq as <- <- <-; reflexivity.
Qed.

Lemma Read_Reader_data_or_error_witness :
  let rd := {| err := None; r := Some (NewBasic "ld!") |} in
  let rd' := {| err := Some io_EOF; r := Some ([] : basic) |} in
  let q := Slice (list_byte_of_string "ld!") (repeat x00 7) in
  Read rd (make 10) = Return (rd', q, None) /\ 0 < len q /\
  @None error_value = None.
Proof.
  cbv zeta; split; [reflexivity|]; split; [reflexivity|].
  apply (@Read_Reader_data_or_error _ _
           {| err := None; r := Some (NewBasic "ld!") |}
           {| err := Some io_EOF; r := Some [] |}
           (make 10)
           (Slice (list_byte_of_string "ld!") (repeat x00 7))
           None).
  - reflexivity.
  - reflexivity.
Defined.

(** X7. The wrapper reads its source at most once per [Read] and never on
    [Err]: over any sequence of calls a recording source logs at most as
    many reads as there were [Read] calls, and a sequence of [Err] calls
    alone leaves the source as it was. *)
Theorem Reader_reads_source_at_most_once (S : Type) (H : io_Reader S)
  (rc : Reader (Recorder S)) (cs : list call) :
  (length (log (r (fst (run rc cs)))) <=
   length (log (r rc)) + count_reads cs)%nat /\
  (count_reads cs = O -> r (fst (run rc cs)) = r rc).
Proof.
  revert rc; induction cs as [|c cs IH]; intros rc.
  - cbn [run fst count_reads]; split; [lia | reflexivity].
  - rewrite run_cons; cbn [fst].
    destruct (IH (fst (step rc c))) as [IHlen IHerr].
    destruct c as [p|]; cbn [count_reads].
    + split; [|discriminate].
      rewrite step_Read in IHlen |- *; cbn [fst] in IHlen |- *.
      destruct (Reader_Read_case rc p)
        as [x Hx | s' p' n x Hclear Hcall Hn | s' p' n e Hclear Hcall Hcase];
        cbn [fst snd r] in IHlen |- *.
      * lia.
      * destruct (call_Read_Recorder _ _ Hcall) as [_ Hlog].
        rewrite Hlog, length_app in IHlen; cbn [length] in IHlen; lia.
      * destruct (call_Read_Recorder _ _ Hcall) as [_ Hlog].
        rewrite Hlog, length_app in IHlen; cbn [length] in IHlen; lia.
    + cbn [step Reader_Err fst r] in *; split; [lia | exact IHerr].
Qed.

(** X8. [NewReader] panics on a nil source.  On any other source it returns
    a wrapper around that source with nothing pending: [Err] returns nil and
    changes nothing, and the first [Read] returns the count and the buffer
    of the source's read, with the source's error when the count is 0 and
    with nil otherwise, the error then waiting in the slot. *)
Theorem NewReader_fresh (S : Type) (H : io_Reader S) (s : S) (p : slice) :
  NewReader (@None S) = Panic "cannot wrap nil io.Reader" /\
  exists rd,
    NewReader (Some s) = Return rd /\
    r rd = s /\
    Reader_Err rd = (rd, None) /\
    r (state_of (Reader_Read rd p)) = state_of (call_Read s p) /\
    buffer_of (Reader_Read rd p) = buffer_of (call_Read s p) /\
    count_of (Reader_Read rd p) = count_of (call_Read s p) /\
    error_of (Reader_Read rd p) =
      (if count_of (call_Read s p) =? 0 then error_of (call_Read s p)
       else None) /\
    err (state_of (Reader_Read rd p)) =
      (if count_of (call_Read s p) =? 0 then None
       else error_of (call_Read s p)).
Proof.
  split; [reflexivity|].
  exists {| err := None; r := s |}.
  split; [reflexivity|]; split; [reflexivity|]; split; [reflexivity|].
  destruct (call_Read s p) as [[[s' p'] n] e] eqn:Hcall.
  unfold state_of, buffer_of, count_of, error_of; cbn [fst snd].
  destruct (Z.eqb_spec n 0) as [Hn|Hn].
  - rewrite (Reader_Read_through {| err := None; r := s |} p
               (s' := s') (p' := p') (n := n) (e := e)) by auto.
    repeat split.
  - destruct e as [x|].
    + rewrite (Reader_Read_deferred {| err := None; r := s |} p
                 (s' := s') (p' := p') (n := n) (x := x)) by auto.
      repeat split.
    + rewrite (Reader_Read_through {| err := None; r := s |} p
                 (s' := s') (p' := p') (n := n) (e := None)) by auto.
      repeat split.
Qed.

Lemma slice_to_whole (e s : list byte) :
  slice_to (Slice e s) (cap (Slice e s)) = Return (Slice (e ++ s) []).
Proof.
  unfold slice_to.
  replace ((cap (Slice e s) <? 0) || (cap (Slice e s) <? cap (Slice e s)))
    with false
    by (symmetry; apply orb_false_iff; unfold cap; split; apply Z.ltb_ge; lia).
  unfold cap; cbn [elems spare].
  rewrite Nat2Z.id, <- length_app, firstn_all, skipn_all; reflexivity.
Qed.

(** X9. The helper reads into the whole backing array of [p], whatever the
    current length of [p]: a slice cut short by an earlier call can be passed
    in again and the read is the one on the full buffer. *)
Theorem Read_ignores_length (S : Type) (H : io_Reader S) (src : S)
  (e s : list byte) :
  Read src (Slice e s) = Read src (Slice (e ++ s) []).
Proof.
  unfold Read; rewrite !slice_to_whole, app_nil_r; reflexivity.
Qed.

(** ** The loops of the example file *)

Lemma printed_in_window (p : slice) (n : Z) :
  0 <= n <= len p ->
  printed p n = Return (string_of_list_byte (bytes_read p n)) /\
  exists q, slice_to p n = Return q /\ elems q = bytes_read p n.
Proof.
  intros Hn; unfold printed.
  destruct (slice_to_in_bounds p (n := n)) as (q & Hq & Hlen & _ & Harr & _);
    [pose proof (len_le_cap p); lia|].
  assert (Helems : elems q = bytes_read p n).
  { unfold bytes_read, len in *.
    assert (Hq_len : length (elems q) = Z.to_nat n) by lia.
    apply (f_equal (firstn (Z.to_nat n))) in Harr.
    rewrite !firstn_app in Harr.
    replace (Z.to_nat n - length (elems q))%nat with O in Harr by lia.
    replace (Z.to_nat n - length (elems p))%nat with O in Harr by lia.
    cbn [firstn] in Harr; rewrite !app_nil_r in Harr.
    rewrite (firstn_all2 (elems q)) in Harr by lia.
    exact Harr. }
  rewrite Hq; cbn [go_bind]; rewrite Helems; eauto.
Qed.

Lemma line_bytes_cons (l : list byte) (out : list string) :
  line_bytes (string_of_list_byte l :: out) = l ++ line_bytes out.
Proof.
  unfold line_bytes; cbn [map concat].
  rewrite list_byte_of_string_of_list_byte; reflexivity.
Qed.

(** The three ways a read of [basic] into a non-empty buffer can go. *)
Lemma basic_read_step (bs : basic) (p : slice) :
  0 < len p ->
  exists p',
    len p' = len p /\ cap p' = cap p /\ is_nil_slice p' = is_nil_slice p /\
    ((bs = [] /\ call_Read (Some bs) p = (Some [], p', 0, Some io_EOF))
     \/
     (bs <> [] /\ (length bs < length (elems p))%nat /\
      call_Read (Some bs) p =
        (Some [], p', Z.of_nat (length bs), Some io_EOF) /\
      bytes_read p' (Z.of_nat (length bs)) = bs)
     \/
     ((length (elems p) <= length bs)%nat /\
      call_Read (Some bs) p =
        (Some (skipn (length (elems p)) bs), p',
         Z.of_nat (length (elems p)), None) /\
      bytes_read p' (Z.of_nat (length (elems p))) =
        firstn (length (elems p)) bs)).
Proof.
  intros Hp; unfold len in Hp.
  destruct (basic_call_Read_closed bs p)
    as (p' & Hcall & Hfirst & _ & Hlen & Hcap & Hnil).
  exists p'; repeat (split; [assumption|]).
  assert (Hlen' : length (elems p') = length (elems p))
    by (unfold len in Hlen; lia).
  destruct (Nat.eqb_spec (length bs) 0) as [Hz|Hnz]; cbn [orb] in Hcall.
  - left.
    assert (bs = []) by (destruct bs; [reflexivity | discriminate]); subst bs.
    rewrite Nat.min_0_r in Hcall; split; [reflexivity | exact Hcall].
  - destruct (Nat.ltb_spec (length bs) (length (elems p))) as [Hlt|Hge].
    + right; left.
      rewrite Nat.min_r in Hcall, Hfirst by lia.
      rewrite skipn_all in Hcall; rewrite firstn_all in Hfirst.
      repeat split; try assumption.
      * intros ->; contradiction Hnz; reflexivity.
      * unfold bytes_read; rewrite Nat2Z.id; exact Hfirst.
    + right; right.
      rewrite Nat.min_l in Hcall, Hfirst by lia.
      repeat split; try assumption.
      unfold bytes_read; rewrite Nat2Z.id; exact Hfirst.
Qed.

(** X10. The first loop of ExampleReader, which stops at the first error
    without looking at [n], run on [basic] with a non-empty buffer that does
    not overlap the source's bytes: it ends, it prints the content up to the
    last full buffer, and it reports as lost the rest,
    [len(content) mod len(p)] bytes, which it read together with io.EOF. *)
Theorem ExampleReader_naive_loses_tail (bs : basic) (p : slice) (fuel : nat) :
  0 < len p -> (length bs < fuel)%nat ->
  exists out lost,
    ExampleReader_naive fuel (Some bs) p = Some (Return (out, lost)) /\
    line_bytes out ++ list_byte_of_string lost = bs /\
    length (list_byte_of_string lost) =
      (length bs mod length (elems p))%nat.
Proof.
  revert bs p; induction fuel as [|fuel IH]; intros bs p Hp Hfuel; [lia|].
  destruct (basic_read_step bs p Hp)
    as (p' & Hlen & _ & _ &
        [(-> & Hcall) | [(Hne & Hlt & Hcall & Hbytes) | (Hge & Hcall & Hbytes)]]);
    cbn [ExampleReader_naive]; rewrite Hcall; cbn [is_nil_error negb].
  - destruct (printed_in_window p' (n := 0)) as [-> _]; [lia|].
    cbn [go_bind]; do 2 eexists; split; [reflexivity|].
    rewrite bytes_read_nonpos by lia; cbn.
    rewrite Nat.Div0.mod_0_l; split; reflexivity.
  - destruct (printed_in_window p' (n := Z.of_nat (length bs))) as [-> _];
      [unfold len in *; lia|].
    cbn [go_bind]; do 2 eexists; split; [reflexivity|].
    rewrite Hbytes, list_byte_of_string_of_list_byte.
    rewrite Nat.mod_small by lia; split; reflexivity.
  - destruct (printed_in_window p' (n := Z.of_nat (length (elems p)))) as [-> _];
      [unfold len in *; lia|].
    assert (Hk : length (elems p') = length (elems p))
      by (unfold len in Hlen; lia).
    assert (Hpos : (0 < length (elems p))%nat) by (unfold len in Hp; lia).
    destruct (IH (skipn (length (elems p)) bs) p')
      as (out & lost & Hrun & Hout & Hlost);
      [lia | rewrite length_skipn; lia |].
    unfold basic in *; rewrite Hrun.
    do 2 eexists; split; [reflexivity|].
    rewrite line_bytes_cons, Hbytes, <- app_assoc, Hout, firstn_skipn.
    split; [reflexivity|].
    rewrite Hlost, Hk, length_skipn.
    replace (length bs) with (length bs - length (elems p) + 1 * length (elems p))%nat
      at 2 by lia.
    rewrite Nat.Div0.mod_add; reflexivity.
Qed.

Lemma ExampleReader_naive_loses_tail_witness :
  exists out lost,
    ExampleReader_naive 14 (Some (NewBasic "Hello, World!")) (make 10) =
      Some (Return (out, lost)) /\
    line_bytes out ++ list_byte_of_string lost = NewBasic "Hello, World!" /\
    length (list_byte_of_string lost) =
      (length (NewBasic "Hello, World!") mod length (elems (make 10)))%nat.
Proof.
  apply (@ExampleReader_naive_loses_tail (NewBasic "Hello, World!") (make 10) 14).
  - reflexivity.
  - vm_compute; lia.
Defined.

(** X11. The second loop of ExampleReader, which prints [p[:n]] when
    [n > 0] before it looks at the error, run on [basic] with a non-empty
    buffer that does not overlap the source's bytes: it ends without a panic
    and prints exactly the content. *)
Theorem ExampleReader_careful_prints_all (bs : basic) (p : slice)
  (fuel : nat) :
  0 < len p -> (length bs < fuel)%nat ->
  exists out,
    ExampleReader_careful fuel (Some bs) p = Some (Return out) /\
    line_bytes out = bs.
Proof.
  revert bs p; induction fuel as [|fuel IH]; intros bs p Hp Hfuel; [lia|].
  destruct (basic_read_step bs p Hp)
    as (p' & Hlen & _ & _ &
        [(-> & Hcall) | [(Hne & Hlt & Hcall & Hbytes) | (Hge & Hcall & Hbytes)]]);
    cbn [ExampleReader_careful]; rewrite Hcall.
  - cbn [Z.ltb Z.compare is_nil_error negb].
    eexists; split; reflexivity.
  - assert (Hn : (0 <? Z.of_nat (length bs)) = true)
      by (apply Z.ltb_lt; destruct bs; [contradiction | cbn [length]; lia]).
    rewrite Hn.
    destruct (printed_in_window p' (n := Z.of_nat (length bs))) as [-> _];
      [unfold len in *; lia|].
    cbn [go_bind is_nil_error negb]; eexists; split; [reflexivity|].
    rewrite line_bytes_cons, Hbytes; apply app_nil_r.
  - assert (Hn : (0 <? Z.of_nat (length (elems p))) = true)
      by (apply Z.ltb_lt; exact Hp).
    rewrite Hn.
    destruct (printed_in_window p' (n := Z.of_nat (length (elems p)))) as [-> _];
      [unfold len in *; lia|].
    cbn [go_bind is_nil_error negb].
    assert (Hpos : (0 < length (elems p))%nat) by (unfold len in Hp; lia).
    destruct (IH (skipn (length (elems p)) bs) p') as (out & Hrun & Hout);
      [lia | rewrite length_skipn; lia |].
    unfold basic in *; rewrite Hrun.
    eexists; split; [reflexivity|].
    cbn [app]; rewrite line_bytes_cons, Hbytes, Hout; apply firstn_skipn.
Qed.

Lemma ExampleReader_careful_prints_all_witness :
  exists out,
    ExampleReader_careful 14 (Some (NewBasic "Hello, World!")) (make 10) =
      Some (Return out) /\
    line_bytes out = NewBasic "Hello, World!".
Proof.
  apply (@ExampleReader_careful_prints_all (NewBasic "Hello, World!") (make 10) 14).
  - reflexivity.
  - vm_compute; lia.
Defined.

(** A wrapper with io.EOF in its slot ends both wrapped loops at once. *)
Lemma ExampleReader_loop_pending (S : Type) (H : io_Reader S) (fuel : nat)
  (rd : Reader S) (p : slice) (x : error_value) :
  err rd = Some x -> ExampleReader_loop (Datatypes.S fuel) rd p = Some [].
Proof.
  intros Hx; cbn [ExampleReader_loop].
  rewrite (Reader_Read_pending rd p Hx); reflexivity.
Qed.

(** X12. The third loop of ExampleReader, which stops at the first error
    without looking at [n], run on a wrapper around [basic] with a
    non-empty buffer that does not overlap the source's bytes: it ends and
    prints exactly the content, the tail included. *)
Theorem ExampleReader_loop_prints_all (bs : basic) (p : slice) (fuel : nat) :
  0 < len p -> (length bs + 1 < fuel)%nat ->
  exists out,
    ExampleReader_loop fuel {| err := None; r := Some bs |} p = Some out /\
    line_bytes out = bs.
Proof.
  revert bs p; induction fuel as [|fuel IH]; intros bs p Hp Hfuel; [lia|].
  destruct (basic_read_step bs p Hp)
    as (p' & Hlen & _ & _ &
        [(Hbs & Hcall) | [(Hne & Hlt & Hcall & Hbytes) | (Hge & Hcall & Hbytes)]]);
    cbn [ExampleReader_loop].
  - erewrite Reader_Read_through; [|reflexivity | exact Hcall | auto].
    cbn [is_nil_error negb]; eexists; split; [reflexivity|].
    symmetry; exact Hbs.
  - erewrite Reader_Read_deferred; [|reflexivity | exact Hcall |].
    2: destruct bs; [contradiction | cbn [length]; lia].
    cbn [is_nil_error negb].
    destruct fuel as [|fuel]; [lia|].
    erewrite ExampleReader_loop_pending; [|reflexivity].
    eexists; split; [reflexivity|].
    rewrite line_bytes_cons, Hbytes; apply app_nil_r.
  - erewrite Reader_Read_through; [|reflexivity | exact Hcall | auto].
    cbn [is_nil_error negb].
    assert (Hpos : (0 < length (elems p))%nat) by (unfold len in Hp; lia).
    destruct (IH (skipn (length (elems p)) bs) p') as (out & Hrun & Hout);
      [lia | rewrite length_skipn; lia |].
    unfold basic in *; rewrite Hrun.
    eexists; split; [reflexivity|].
    rewrite line_bytes_cons, Hbytes, Hout; apply firstn_skipn.
Qed.

Lemma ExampleReader_loop_prints_all_witness :
  exists out,
    ExampleReader_loop 15 {| err := None; r := Some (NewBasic "Hello, World!") |}
      (make 10) = Some out /\
    line_bytes out = NewBasic "Hello, World!".
Proof.
  apply (@ExampleReader_loop_prints_all (NewBasic "Hello, World!") (make 10) 15).
  - reflexivity.
  - vm_compute; lia.
Defined.

(** One call of the helper on a buffer that is not nil, from the read it
    makes on the whole backing array. *)
Lemma Read_step (S : Type) (H : io_Reader S) (src s' : S)
  (ep sp : list byte) (p2 : slice) (n : Z) (e : error) :
  call_Read src (Slice (ep ++ sp) []) = (s', p2, n, e) ->
  0 <= n <= len p2 ->
  exists q,
    Read src (Slice ep sp) = Return (s', q, e) /\
    elems q = bytes_read p2 n /\
    is_nil_slice (refresh (Slice ep sp) q) = false /\
    cap (refresh (Slice ep sp) q) = cap (Slice ep sp).
Proof.
  intros Hcall Hn.
  destruct (call_Read_header _ _ Hcall) as (Hlen2 & Hcap2 & Hnil2).
  destruct (printed_in_window p2 Hn) as (_ & q & Hq & Helems).
  destruct (slice_to_Return _ _ Hq) as (_ & Harr & _).
  exists q; unfold Read; rewrite slice_to_whole; cbn [go_bind].
  rewrite Hcall, Hnil2; cbn [is_nil_slice negb]; rewrite Hq; cbn [go_bind].
  repeat split; [exact Helems|].
  unfold cap in *; cbn [refresh elems spare] in *.
  rewrite <- length_app, firstn_skipn, Harr, length_app.
  rewrite length_app in Hcap2; cbn [length] in Hcap2; lia.
Qed.

Lemma ExampleRead_loop_pending (S : Type) (H : io_Reader S) (fuel : nat)
  (rd : Reader S) (p : slice) (x : error_value) :
  err rd = Some x -> is_nil_slice p = false ->
  ExampleRead_loop (Datatypes.S fuel) rd p = Some (Return []).
Proof.
  intros Hx Hnil; destruct p as [|ep sp]; [discriminate|].
  destruct (Read_step Reader_io_Reader rd ep sp
              (s' := {| err := None; r := r rd |})
              (p2 := Slice (ep ++ sp) []) (n := 0) (e := Some x))
    as (q & HRead & _).
  - rewrite call_Read_Reader; apply Reader_Read_pending; exact Hx.
  - unfold len; lia.
  - cbn [ExampleRead_loop]; rewrite HRead; reflexivity.
Qed.

(** X13. The loop of ExampleRead, the helper on a wrapper around [basic],
    with a buffer that is not nil, has room for at least one byte and does
    not overlap the source's bytes: it ends without a panic and prints
    exactly the content, whatever the current length of the buffer. *)
Theorem ExampleRead_loop_prints_all (bs : basic) (p : slice) (fuel : nat) :
  is_nil_slice p = false -> 0 < cap p -> (length bs + 1 < fuel)%nat ->
  exists out,
    ExampleRead_loop fuel {| err := None; r := Some bs |} p =
      Some (Return out) /\
    line_bytes out = bs.
Proof.
  revert bs p; induction fuel as [|fuel IH]; intros bs p Hnil Hcap Hfuel; [lia|].
  destruct p as [|ep sp]; [discriminate|].
  assert (Hp1 : 0 < len (Slice (ep ++ sp) []))
    by (unfold len, cap in *; cbn [elems spare] in *; rewrite length_app; lia).
  assert (Hk : length (elems (Slice (ep ++ sp) [])) = length (ep ++ sp))
    by reflexivity.
  destruct (basic_read_step bs (Slice (ep ++ sp) []) Hp1)
    as (p' & Hlen & _ & _ &
        [(Hbs & Hcall) | [(Hne & Hlt & Hcall & Hbytes) | (Hge & Hcall & Hbytes)]]).
  - destruct (Read_step Reader_io_Reader
                {| err := None; r := Some bs |} ep sp
                (s' := {| err := None; r := Some [] |})
                (p2 := p') (n := 0) (e := Some io_EOF))
      as (q & HRead & _).
    + rewrite call_Read_Reader.
      erewrite Reader_Read_through; [reflexivity | reflexivity | exact Hcall | auto].
    + lia.
    + cbn [ExampleRead_loop]; rewrite HRead; cbn [is_nil_error negb].
      eexists; split; [reflexivity | symmetry; exact Hbs].
  - destruct (Read_step Reader_io_Reader
                {| err := None; r := Some bs |} ep sp
                (s' := {| err := Some io_EOF; r := Some [] |})
                (p2 := p') (n := Z.of_nat (length bs)) (e := None))
      as (q & HRead & Helems & Hnil' & _).
    + rewrite call_Read_Reader.
      erewrite Reader_Read_deferred; [reflexivity | reflexivity | exact Hcall |].
      destruct bs; [contradiction | cbn [length]; lia].
    + rewrite Hk in Hlt; unfold len in *; cbn [elems] in *; lia.
    + cbn [ExampleRead_loop]; rewrite HRead; cbn [is_nil_error negb].
      destruct fuel as [|fuel]; [lia|].
      erewrite ExampleRead_loop_pending; [|reflexivity | exact Hnil'].
      eexists; split; [reflexivity|].
      rewrite Helems, line_bytes_cons, Hbytes; apply app_nil_r.
  - destruct (Read_step Reader_io_Reader
                {| err := None; r := Some bs |} ep sp
                (s' := {| err := None; r := Some (skipn (length (ep ++ sp)) bs) |})
                (p2 := p') (n := Z.of_nat (length (ep ++ sp))) (e := None))
      as (q & HRead & Helems & Hnil' & Hcap').
    + rewrite call_Read_Reader.
      erewrite Reader_Read_through; [reflexivity | reflexivity | exact Hcall | auto].
    + unfold len in *; cbn [elems] in *; lia.
    + cbn [ExampleRead_loop]; rewrite HRead; cbn [is_nil_error negb].
      assert (Hpos : (0 < length (ep ++ sp))%nat)
        by (unfold len in Hp1; cbn [elems] in Hp1; lia).
      destruct (IH (skipn (length (ep ++ sp)) bs) (refresh (Slice ep sp) q))
        as (out & Hrun & Hout);
        [exact Hnil' | rewrite Hcap'; exact Hcap | rewrite length_skipn; lia |].
      unfold basic in *; rewrite Hrun.
      eexists; split; [reflexivity|].
      cbn [elems] in Hbytes.
      rewrite Helems, line_bytes_cons, Hbytes, Hout; apply firstn_skipn.
Qed.

Lemma ExampleRead_loop_prints_all_witness :
  exists out,
    ExampleRead_loop 15 {| err := None; r := Some (NewBasic "Hello, World!") |}
      (Slice [] (repeat x00 10)) = Some (Return out) /\
    line_bytes out = NewBasic "Hello, World!".
Proof.
  apply (@ExampleRead_loop_prints_all (NewBasic "Hello, World!")
           (Slice [] (repeat x00 10)) 15).
  - reflexivity.
  - reflexivity.
  - vm_compute; lia.
Defined.

(** ** Reads through the wrapper against reads on the bare source *)

Section Direct.
Context {S : Type} `{io_Reader S}.

Lemma reads_through_cons (s : S) (p : slice) (ps : list slice) :
  reads_through s (p :: ps) =
  CallRead p ::
  (if negb (count_of (call_Read s p) =? 0) &&
      negb (is_nil_error (error_of (call_Read s p)))
   then [CallRead nil_slice] else [])
  ++ reads_through (state_of (call_Read s p)) ps.
Proof.
  cbn [reads_through]; destruct (call_Read s p) as [[[s' p'] n] e].
  reflexivity.
Qed.

(** Every result the wrapper returns is a result of the source, read with
    the buffers the wrapper passed on, in the same order. *)
Lemma run_delegated (cs : list call) :
  forall rd : Reader S,
    fst (source_run (r rd) (delegated rd cs)) = r (fst (run rd cs)) /\
    log_data (snd (source_run (r rd) (delegated rd cs))) =
    reply_data (snd (run rd cs)).
Proof.
  induction cs as [|c cs IH]; intros rd; [split; reflexivity|].
  rewrite run_cons; cbn [delegated fst snd].
  destruct c as [p|].
  - rewrite step_Read; cbn [fst snd reply_data].
    destruct (Reader_Read_case rd p)
      as [x Hx | s' p' n x Hclear Hcall Hn | s' p' n e Hclear Hcall Hcase];
      cbn [fst snd].
    + rewrite Hx; cbn [is_nil_error app Z.ltb Z.compare].
      apply (IH {| err := None; r := r rd |}).
    + rewrite Hclear; cbn [is_nil_error app].
      rewrite source_run_cons, Hcall.
      unfold state_of, buffer_of, count_of; cbn [fst snd log_data].
      destruct (IH {| err := Some x; r := s' |}) as [IHs IHd].
      cbn [r] in IHs, IHd; rewrite IHs, IHd.
      split; [reflexivity | destruct (0 <? n); reflexivity].
    + rewrite Hclear; cbn [is_nil_error app].
      rewrite source_run_cons, Hcall.
      unfold state_of, buffer_of, count_of; cbn [fst snd log_data].
      destruct (IH {| err := None; r := s' |}) as [IHs IHd].
      cbn [r] in IHs, IHd; rewrite IHs, IHd.
      split; [reflexivity | destruct (0 <? n); reflexivity].
  - cbn [step Reader_Err fst snd reply_data app].
    apply (IH {| err := None; r := r rd |}).
Qed.

(** Every read of the bare source is made by the wrapper when the caller
    reads through it, with the same result. *)
Lemma run_reads_through (ps : list slice) :
  forall s : S,
    fst (run {| err := None; r := s |} (reads_through s ps)) =
      {| err := None; r := fst (source_run s ps) |} /\
    reply_data (snd (run {| err := None; r := s |} (reads_through s ps))) =
      log_data (snd (source_run s ps)).
Proof.
  induction ps as [|p ps IH]; intros s; [split; reflexivity|].
  rewrite reads_through_cons, source_run_cons.
  destruct (call_Read s p) as [[[s' p'] n] e] eqn:Hcall.
  unfold state_of, buffer_of, count_of, error_of; cbn [fst snd log_data].
  destruct (IH s') as [IHs IHd].
  destruct (Z.eqb_spec n 0) as [Hn|Hn]; cbn [negb andb app].
  - rewrite run_cons, step_Read.
    rewrite (Reader_Read_through {| err := None; r := s |} p
               (s' := s') (p' := p') (n := n) (e := e)) by auto.
    cbn [fst snd reply_data]; rewrite IHs, IHd; split; reflexivity.
  - destruct e as [x|]; cbn [is_nil_error negb app].
    + rewrite run_cons, step_Read.
      rewrite (Reader_Read_deferred {| err := None; r := s |} p
                 (s' := s') (p' := p') (n := n) (x := x)) by auto.
      cbn [fst snd]; rewrite run_cons, step_Read.
      rewrite (Reader_Read_pending {| err := Some x; r := s' |} nil_slice
                 (x := x)) by reflexivity.
      cbn [fst snd r reply_data Z.ltb Z.compare]; rewrite IHs, IHd.
      split; reflexivity.
    + rewrite run_cons, step_Read.
      rewrite (Reader_Read_through {| err := None; r := s |} p
                 (s' := s') (p' := p') (n := n) (e := None)) by auto.
      cbn [fst snd reply_data]; rewrite IHs, IHd; split; reflexivity.
Qed.

End Direct.

(** C2. Against the bare source read directly, in both directions.  For
    every source, every state of the wrapper and every sequence of calls,
    the non-empty results of the wrapper's reads, in call order, are the
    non-empty results of reading the source directly with the buffers of
    the reads that found the slot empty, and the source ends in the same
    state: nothing is made up, repeated or reordered.  For every source and
    every sequence of direct reads, a caller that makes the same reads
    through the wrapper, with one more read after each error that came with
    data, gets the same non-empty results and leaves the source in the same
    state: nothing is lost.  So the concatenated bytes [p[:n]] are the same
    on both sides. *)
Theorem Reader_no_loss (S : Type) (H : io_Reader S) :
  (forall (rd : Reader S) (cs : list call),
     fst (source_run (r rd) (delegated rd cs)) = r (fst (run rd cs)) /\
     reply_data (snd (run rd cs)) =
       log_data (snd (source_run (r rd) (delegated rd cs))) /\
     concat_data (reply_data (snd (run rd cs))) =
       concat_data (log_data (snd (source_run (r rd) (delegated rd cs))))) /\
  (forall (s : S) (ps : list slice),
     fst (run {| err := None; r := s |} (reads_through s ps)) =
       {| err := None; r := fst (source_run s ps) |} /\
     reply_data (snd (run {| err := None; r := s |} (reads_through s ps))) =
       log_data (snd (source_run s ps)) /\
     concat_data
       (reply_data (snd (run {| err := None; r := s |} (reads_through s ps)))) =
       concat_data (log_data (snd (source_run s ps)))).
Proof.
  split.
  - intros rd cs; destruct (run_delegated cs rd) as [Hs Hd].
    rewrite Hd; repeat split; assumption.
  - intros s ps; destruct (run_reads_through ps s) as [Hs Hd].
    rewrite Hd; repeat split; assumption.
Qed.
